(** * Job application tracker: the ProfileView component and the job-record contract

    The first part embeds the event handlers of the [ProfileView] React
    component (delete-confirmation dialog, add-form validation).  The
    component keeps two pieces of local state ([deleteDialog], [addError])
    and talks to its parent through callback props; the handlers are written
    in a small state monad over that local state plus a log of the callback
    invocations. *)

From Stdlib Require Import Ascii.
From stdpp Require Import base strings list gmap.

Local Open Scope string_scope.
Local Open Scope list_scope.

(** ** JavaScript values used by the component *)

(** [!s] on a JavaScript string is [true] exactly for the empty string. *)
Definition truthy (s : string) : bool :=
  match s with
  | EmptyString => false
  | String _ _ => true
  end.

(** ** Data of the component *)

(** A row of the table ([job] in [filteredJobs.map]). *)
Module Job.
Record t := mk {
  _id : string;
  Position : string;
  Company : string;
  Phase : string;
  CL : bool;
  Status : bool;
  Note : string;
  Applied_date : string
}.
End Job.

(** The draft of the add-new row (prop [newJob]); the text inputs hold
    strings, the checkbox and the Active/Inactive select hold booleans. *)
Module NewJob.
Record t := mk {
  Position : string;
  Company : string;
  Phase : string;
  CL : bool;
  Status : bool;
  Note : string;
  Applied_date : string
}.
End NewJob.

(** An input change event: only [e.target.name] is read by the component;
    the value travels to the parent's [handleChange]. *)
Record ChangeEvent := mkChangeEvent {
  target_name : string;
  target_value : string
}.

(** Invocations of the callback props, in the order they happen. *)
Inductive Call :=
| HandleChange (e : ChangeEvent)
| HandleAddJob
| HandleDeleteJob (id : string).

(** [useState({ open: false, job: null })] *)
Record DeleteDialog := mkDeleteDialog {
  open : bool;
  job : option Job.t
}.

Record State := mkState {
  deleteDialog : DeleteDialog;
  addError : gmap string string;
  calls : list Call
}.

Definition initial : State :=
  {| deleteDialog := {| open := false; job := None |};
     addError := ∅;
     calls := [] |}.

(** ** The handler monad *)

Definition M (A : Type) : Type := State → A * State.

#[global] Instance M_ret : MRet M := λ A a s, (a, s).

#[global] Instance M_fmap : FMap M :=
  λ A B f m s, let (a, s') := m s in (f a, s').

#[global] Instance M_bind : MBind M :=
  λ A B k m s, let (a, s') := m s in k a s'.

Definition when (b : bool) (m : M unit) : M unit :=
  if b then m else mret tt.

Definition exec {A} (m : M A) (s : State) : State := (m s).2.

(** [setDeleteDialog(v)] *)
Definition setDeleteDialog (v : DeleteDialog) : M unit :=
  λ s, (tt, {| deleteDialog := v; addError := addError s; calls := calls s |}).

(** [setAddError(prev => f(prev))]; [setAddError(v)] is the constant updater. *)
Definition setAddError (f : gmap string string → gmap string string) : M unit :=
  λ s, (tt, {| deleteDialog := deleteDialog s; addError := f (addError s);
               calls := calls s |}).

(** A callback prop is invoked. *)
Definition call (c : Call) : M unit :=
  λ s, (tt, {| deleteDialog := deleteDialog s; addError := addError s;
               calls := calls s ++ [c] |}).

(** The state of the current render, as closed over by the handlers. *)
Definition rendered : M State := λ s, (s, s).

(** ** The handlers *)

Definition handleNewJobChange (e : ChangeEvent) : M unit :=
  call (HandleChange e) ;;
  let name := target_name e in
  setAddError (λ prev, <[name := ""]> prev).

(** The [errors] object built by the three [if] statements. *)
Definition validationErrors (newJob : NewJob.t) : gmap string string :=
  let errors : gmap string string := ∅ in
  let errors :=
    if negb (truthy (NewJob.Position newJob))
    then <["Position" := "Position is required"]> errors else errors in
  let errors :=
    if negb (truthy (NewJob.Company newJob))
    then <["Company" := "Company is required"]> errors else errors in
  let errors :=
    if negb (truthy (NewJob.Applied_date newJob))
    then <["Applied date" := "Applied Date is required"]> errors else errors in
  errors.

Definition handleAddJobWithValidation (newJob : NewJob.t) : M unit :=
  let errors := validationErrors newJob in
  setAddError (λ _, errors) ;;
  when (bool_decide (size errors = 0)) (call HandleAddJob).

Definition openDeleteDialog (j : Job.t) : M unit :=
  setDeleteDialog {| open := true; job := Some j |}.

Definition closeDeleteDialog : M unit :=
  setDeleteDialog {| open := false; job := None |}.

Definition confirmDelete : M unit :=
  deleteDialog ← deleteDialog <$> rendered;
  match job deleteDialog with
  | Some j => call (HandleDeleteJob (Job._id j))
  | None => mret tt
  end ;;
  closeDeleteDialog.

(** ** User interaction *)

(** The elements of the rendered view that carry a handler of the
    component, each with the handler it is wired to. *)
Inductive Event :=
| ClickDeleteIcon (j : Job.t)
| DialogClose
| ClickCancel
| ClickDelete
| ChangeNewJob (e : ChangeEvent)
| ClickAdd (newJob : NewJob.t).

Definition dispatch (ev : Event) : M unit :=
  match ev with
  | ClickDeleteIcon j => openDeleteDialog j
  | DialogClose => closeDeleteDialog
  | ClickCancel => closeDeleteDialog
  | ClickDelete => confirmDelete
  | ChangeNewJob e => handleNewJobChange e
  | ClickAdd newJob => handleAddJobWithValidation newJob
  end.

Definition step (s : State) (ev : Event) : State := exec (dispatch ev) s.

Definition run (s : State) (evs : list Event) : State := foldl step s evs.

(** The events that set [deleteDialog]. *)
Definition touchesDialog (ev : Event) : bool :=
  match ev with
  | ClickDeleteIcon _ | DialogClose | ClickCancel | ClickDelete => true
  | ChangeNewJob _ | ClickAdd _ => false
  end.

(** The dialog was opened for [j] and nothing has set [deleteDialog] since. *)
Definition pendingFrom (evs : list Event) (j : Job.t) : Prop :=
  ∃ pre mid,
    evs = pre ++ ClickDeleteIcon j :: mid
    ∧ Forall (λ ev, touchesDialog ev = false) mid.

(** The dialog was opened for a row with this [_id] and its Delete button
    was pressed while that row was still the pending one. *)
Definition confirmedIn (evs : list Event) (ident : string) : Prop :=
  ∃ pre j mid post,
    evs = pre ++ ClickDeleteIcon j :: mid ++ ClickDelete :: post
    ∧ Job._id j = ident
    ∧ Forall (λ ev, touchesDialog ev = false) mid.

(** The required fields of the add-new row, by the key of their error. *)
Definition requiredEmpty (newJob : NewJob.t) (k : string) : Prop :=
  (k = "Position" ∧ NewJob.Position newJob = "")
  ∨ (k = "Company" ∧ NewJob.Company newJob = "")
  ∨ (k = "Applied date" ∧ NewJob.Applied_date newJob = "").

(** * The parent's helpers and the backend contract

    [getDateValue], the filter that derives [filteredJobs] from [jobs] and
    [filters], and the task routes are not part of the two files above;
    they are modelled from the contract. *)

(** ** Date normalization *)

(** Modelled from the spec: [getDateValue], which the component receives as
    a prop and whose definition is in the parent (Profile.js).  The contract
    asks for the [YYYY-MM-DD] display form of an ISO date string (its first
    ten characters, the calendar date before the [T]), the empty string for
    empty input, and an already normalized date as it is. *)
Definition getDateValue (date : string) : string :=
  if truthy date then String.substring 0 10 date else "".

Definition isDigit (c : ascii) : bool :=
  let n := nat_of_ascii c in (48 <=? n)%nat && (n <=? 57)%nat.

Definition isDash (c : ascii) : bool := Ascii.eqb c "-"%char.

(** The display form [YYYY-MM-DD]. *)
Definition isYMD (s : string) : bool :=
  match s with
  | String y1 (String y2 (String y3 (String y4 (String h1
      (String m1 (String m2 (String h2 (String d1 (String d2 EmptyString))))))))) =>
      isDigit y1 && isDigit y2 && isDigit y3 && isDigit y4 && isDash h1
      && isDigit m1 && isDigit m2 && isDash h2 && isDigit d1 && isDigit d2
  | _ => false
  end.

(** An ISO date-time string: the display form, a [T], and the time part. *)
Definition isISO (s : string) : bool :=
  isYMD (String.substring 0 10 s)
  && match String.get 10 s with
     | Some c => Ascii.eqb c "T"%char
     | None => false
     end.

(** The accepted input forms: empty, already normalized, ISO string. *)
Definition accepted (s : string) : bool :=
  negb (truthy s) || isYMD s || isISO s.

(** ** Filter engine *)

Module FilterSet.
(** The prop [filters]: one string per filterable field; the two selects
    offer [""], ["true"], ["false"] for CL and [""], ["active"],
    ["inactive"] for Status. *)
Record t := mk {
  Position : string;
  Company : string;
  Phase : string;
  CL : string;
  Status : string;
  Note : string;
  Applied_date : string
}.

Definition empty : t := mk "" "" "" "" "" "" "".
End FilterSet.

(** The text of a string as the runtime compares it: the characters of the
    string and the lower-case form of a character, as used by
    [String.prototype.toLowerCase].  The Unicode case table belongs to the
    runtime, not to the repository, so the filter engine takes it as a
    parameter. *)
Record Alphabet := mkAlphabet {
  char : Type;
  char_eq_dec : EqDecision char;
  chars : string → list char;
  lower : char → char
}.

(** [s.toLowerCase()] *)
Definition toLowerCase (A : Alphabet) (s : string) : list (char A) :=
  lower A <$> chars A s.

(** [l.startsWith(p)] *)
Fixpoint startsWith {C} `{EqDecision C} (l p : list C) {struct p} : bool :=
  match p, l with
  | [], _ => true
  | _ :: _, [] => false
  | x :: p', y :: l' => bool_decide (x = y) && startsWith l' p'
  end.

(** [hay.includes(needle)]: [needle] starts at some position of [hay]. *)
Fixpoint includes {C} `{EqDecision C} (hay needle : list C) : bool :=
  startsWith hay needle
  || match hay with
     | [] => false
     | _ :: hay' => includes hay' needle
     end.

(** An alphabet to run the filter on: UTF-8 text read as code points (one-
    and two-byte sequences; the bytes of longer sequences stand for
    themselves), with the case pairs of Basic Latin and of the Latin-1
    Supplement, whose small letter lies 32 code points above the capital
    one. *)
Fixpoint codePoints (s : string) : list N :=
  match s with
  | EmptyString => []
  | String b rest =>
      let n := N_of_ascii b in
      match rest with
      | EmptyString => [n]
      | String c rest' =>
          let m := N_of_ascii c in
          if ((192 <=? n) && (n <? 224) && (128 <=? m) && (m <? 192))%N
          then ((n - 192) * 64 + (m - 128))%N :: codePoints rest'
          else n :: codePoints rest
      end
  end.

Definition isCapital (n : N) : bool :=
  ((65 <=? n) && (n <=? 90)
   || (192 <=? n) && (n <=? 222) && negb (n =? 215))%N.

Definition lowerN (n : N) : N := if isCapital n then (n + 32)%N else n.

Definition latin1 : Alphabet :=
  {| char := N; char_eq_dec := _; chars := codePoints; lower := lowerN |}.

(** The capital letter [a] and its small letter [b], read off the code
    charts: A to Z, and the capitals of the Latin-1 Supplement (U+00C0 to
    U+00DE without the multiplication sign U+00D7). *)
Definition capitalSmall (a b : N) : Prop :=
  (b = a + 32
   ∧ ((65 ≤ a ∧ a ≤ 90) ∨ (192 ≤ a ∧ a ≤ 222 ∧ a ≠ 215)))%N.

(** Two code points that are the same letter up to case. *)
Definition caseVariantN (a b : N) : Prop :=
  a = b ∨ capitalSmall a b ∨ capitalSmall b a.

(** Modelled from the spec: the filter value of the CL select read as a
    boolean; the select offers ["true"] and ["false"]. *)
Definition clOfFilter (v : string) : bool := String.eqb v "true".

(** Modelled from the spec: the filter value of the Status select read as
    a boolean; the select offers ["active"] and ["inactive"]. *)
Definition statusOfFilter (v : string) : bool := String.eqb v "active".

(** Modelled from the spec: the match rule of a text field; an empty
    filter value puts no constraint on the field. *)
Definition textMatch (A : Alphabet) (filterValue fieldValue : string) : bool :=
  negb (truthy filterValue)
  || includes (EqDecision0 := char_eq_dec A)
       (toLowerCase A fieldValue) (toLowerCase A filterValue).

(** Modelled from the spec: the match rule of a boolean field. *)
Definition boolMatch (interp : string → bool) (filterValue : string)
    (fieldValue : bool) : bool :=
  negb (truthy filterValue) || Bool.eqb (interp filterValue) fieldValue.

(** Modelled from the spec: the match rule of the applied date. *)
Definition dateMatch (filterValue fieldValue : string) : bool :=
  negb (truthy filterValue) || String.eqb (getDateValue fieldValue) filterValue.

(** Modelled from the spec: the predicate of the filter engine (section 4.2
    of the contract); the parent computes [filteredJobs] with it. *)
Definition passes (A : Alphabet) (filters : FilterSet.t) (j : Job.t) : bool :=
  textMatch A (FilterSet.Position filters) (Job.Position j)
  && textMatch A (FilterSet.Company filters) (Job.Company j)
  && textMatch A (FilterSet.Phase filters) (Job.Phase j)
  && boolMatch clOfFilter (FilterSet.CL filters) (Job.CL j)
  && boolMatch statusOfFilter (FilterSet.Status filters) (Job.Status j)
  && textMatch A (FilterSet.Note filters) (Job.Note j)
  && dateMatch (FilterSet.Applied_date filters) (Job.Applied_date j).

(** Modelled from the spec: the filtered view. *)
Definition filterJobs (A : Alphabet) (filters : FilterSet.t)
    (jobs : list Job.t) : list Job.t :=
  List.filter (passes A filters) jobs.

(** The match rules of section 4.2, stated field by field. *)
Inductive Field :=
| FPosition | FCompany | FPhase | FCL | FStatus | FNote | FAppliedDate.

Definition filterValue (filters : FilterSet.t) (f : Field) : string :=
  match f with
  | FPosition => FilterSet.Position filters
  | FCompany => FilterSet.Company filters
  | FPhase => FilterSet.Phase filters
  | FCL => FilterSet.CL filters
  | FStatus => FilterSet.Status filters
  | FNote => FilterSet.Note filters
  | FAppliedDate => FilterSet.Applied_date filters
  end.

(** Case-insensitive substring containment, stated without [lower]: some
    stretch of the field's characters is the needle, character by
    character, up to the case of the letters.  [caseVariant] says which
    characters are the same letter up to case. *)
Definition containsCI (A : Alphabet) (caseVariant : char A → char A → Prop)
    (fieldValue needle : string) : Prop :=
  ∃ pre mid post,
    chars A fieldValue = pre ++ mid ++ post
    ∧ Forall2 caseVariant mid (chars A needle).

(** The rule of each field: containment up to case for the text fields;
    for CL and Status the flag is set exactly when the filter value is the
    option that stands for true (["true"], ["active"]); for the applied
    date the normalized date is the filter value. *)
Definition matchRule (A : Alphabet) (caseVariant : char A → char A → Prop)
    (f : Field) (v : string) (j : Job.t) : Prop :=
  match f with
  | FPosition => containsCI A caseVariant (Job.Position j) v
  | FCompany => containsCI A caseVariant (Job.Company j) v
  | FPhase => containsCI A caseVariant (Job.Phase j) v
  | FNote => containsCI A caseVariant (Job.Note j) v
  | FCL => Job.CL j = true ↔ v = "true"
  | FStatus => Job.Status j = true ↔ v = "active"
  | FAppliedDate => getDateValue (Job.Applied_date j) = v
  end.

(** ** CRUD API layer *)

Module Api.

(** Modelled from the spec: one persisted job application (section 3 of
    the contract). *)
Record JobRecord := mkJobRecord {
  id : string;
  ownerId : string;
  position : string;
  company : string;
  phase : string;
  cl : bool;
  status : bool;
  note : string;
  appliedDate : string
}.

(** Modelled from the spec: the body of an Update request: each mutable
    field is either supplied or absent; [id] and [ownerId] are assigned at
    creation and are not fields of a request. *)
Record PartialFields := mkPartialFields {
  position_opt : option string;
  company_opt : option string;
  phase_opt : option string;
  cl_opt : option bool;
  status_opt : option bool;
  note_opt : option string;
  appliedDate_opt : option string
}.

Inductive ApiError :=
| ValidationError (fields : list string)
| NotFoundError.

(** Modelled from the spec: the document store, records keyed by [id]. *)
Abbreviation Store := (gmap string JobRecord).

(** Modelled from the spec: the record with this [id], when the caller
    owns it. *)
Definition findOwned (owner ident : string) (store : Store) : option JobRecord :=
  match store !! ident with
  | Some r => if bool_decide (ownerId r = owner) then Some r else None
  | None => None
  end.

(** Modelled from the spec: a supplied field replaces the stored one, an
    absent field keeps it. *)
Definition mergeFields (p : PartialFields) (r : JobRecord) : JobRecord :=
  {| id := id r;
     ownerId := ownerId r;
     position := default (position r) (position_opt p);
     company := default (company r) (company_opt p);
     phase := default (phase r) (phase_opt p);
     cl := default (cl r) (cl_opt p);
     status := default (status r) (status_opt p);
     note := default (note r) (note_opt p);
     appliedDate := default (appliedDate r) (appliedDate_opt p) |}.

(** Modelled from the spec: the Update operation of the task routes
    (routes/taskRoutes.js), as section 4.1 of the contract states it. *)
Definition Update (owner ident : string) (p : PartialFields) (store : Store)
    : (ApiError + JobRecord) * Store :=
  match findOwned owner ident store with
  | None => (inl NotFoundError, store)
  | Some r =>
      let r' := mergeFields p r in
      (inr r', <[ident := r']> store)
  end.

(** Modelled from the spec: the Delete operation of the task routes
    (routes/taskRoutes.js), as section 4.1 of the contract states it. *)
Definition Delete (owner ident : string) (store : Store)
    : (ApiError + unit) * Store :=
  match findOwned owner ident store with
  | None => (inl NotFoundError, store)
  | Some _ => (inr tt, delete ident store)
  end.

(** The mutable fields, and a record or a request read through them. *)
Inductive UField :=
| UPosition | UCompany | UPhase | UCl | UStatus | UNote | UAppliedDate.

Inductive Value :=
| VStr (s : string)
| VBool (b : bool).

Definition fieldOf (f : UField) (r : JobRecord) : Value :=
  match f with
  | UPosition => VStr (position r)
  | UCompany => VStr (company r)
  | UPhase => VStr (phase r)
  | UCl => VBool (cl r)
  | UStatus => VBool (status r)
  | UNote => VStr (note r)
  | UAppliedDate => VStr (appliedDate r)
  end.

Definition requested (f : UField) (p : PartialFields) : option Value :=
  match f with
  | UPosition => VStr <$> position_opt p
  | UCompany => VStr <$> company_opt p
  | UPhase => VStr <$> phase_opt p
  | UCl => VBool <$> cl_opt p
  | UStatus => VBool <$> status_opt p
  | UNote => VStr <$> note_opt p
  | UAppliedDate => VStr <$> appliedDate_opt p
  end.

End Api.

(** * The other controls of the view

    The inline handlers of the filter row, of the table cells and of the
    add-new row, what the add-new row draws from [addError], the table body
    and the logout button. *)

(** ** What the add-new row draws *)

(** The property names that every object inherits from [Object.prototype];
    each holds a function or an object, which is truthy. *)
Definition inheritedKeys : list string :=
  [ "constructor"; "hasOwnProperty"; "isPrototypeOf"; "propertyIsEnumerable";
    "toLocaleString"; "toString"; "valueOf"; "__proto__";
    "__defineGetter__"; "__defineSetter__"; "__lookupGetter__";
    "__lookupSetter__" ].

(** [error={!!addError[k]}]: an own entry is read as it is; without an own
    entry the read goes to the prototype, which gives a truthy value for
    the inherited names and [undefined] for every other key. *)
Definition showsError (s : State) (k : string) : bool :=
  match addError s !! k with
  | Some msg => truthy msg
  | None => bool_decide (k ∈ inheritedKeys)
  end.

(** The job named in the text of the dialog: [deleteDialog.job?.Position]
    and [deleteDialog.job?.Company]. *)
Definition dialogNames (s : State) : option (string * string) :=
  (λ j, (Job.Position j, Job.Company j)) <$> job (deleteDialog s).

(** The inputs of the add-new row that are wired to [handleNewJobChange]. *)
Inductive AddRowInput :=
| InPosition | InCompany | InPhase | InCL | InNote | InAppliedDate.

(** The [name] attribute of the input. *)
Definition inputName (i : AddRowInput) : string :=
  match i with
  | InPosition => "Position"
  | InCompany => "Company"
  | InPhase => "Phase"
  | InCL => "CL"
  | InNote => "Note"
  | InAppliedDate => "Applied date"
  end.

(** The key of [addError] read by the [error] and [helperText] props of the
    input; three of the inputs have these props. *)
Definition inputErrorKey (i : AddRowInput) : option string :=
  match i with
  | InPosition => Some "Position"
  | InCompany => Some "Company"
  | InAppliedDate => Some "Applied date"
  | InPhase | InCL | InNote => None
  end.

Definition inputShowsError (s : State) (i : AddRowInput) : bool :=
  match inputErrorKey i with
  | Some k => showsError s k
  | None => false
  end.

(** The draft field checked by the validation for this input, if any. *)
Definition requiredText (newJob : NewJob.t) (i : AddRowInput) : option string :=
  match i with
  | InPosition => Some (NewJob.Position newJob)
  | InCompany => Some (NewJob.Company newJob)
  | InAppliedDate => Some (NewJob.Applied_date newJob)
  | InPhase | InCL | InNote => None
  end.

(** The (key, message) pairs that the validation can write. *)
Definition knownError (k msg : string) : Prop :=
  (k = "Position" ∧ msg = "Position is required")
  ∨ (k = "Company" ∧ msg = "Company is required")
  ∨ (k = "Applied date" ∧ msg = "Applied Date is required").

(** The draft passes the three checks. *)
Definition validDraft (newJob : NewJob.t) : bool :=
  truthy (NewJob.Position newJob)
  && truthy (NewJob.Company newJob)
  && truthy (NewJob.Applied_date newJob).

(** ** Reading the event sequence and the call log *)

Definition isDeleteCall (c : Call) : bool :=
  match c with
  | HandleDeleteJob _ => true
  | _ => false
  end.

Definition isAddCall (c : Call) : bool :=
  match c with
  | HandleAddJob => true
  | _ => false
  end.

Definition changeOfCall (c : Call) : option ChangeEvent :=
  match c with
  | HandleChange e => Some e
  | _ => None
  end.

Definition changeOfEvent (ev : Event) : option ChangeEvent :=
  match ev with
  | ChangeNewJob e => Some e
  | _ => None
  end.

Definition opensDialog (ev : Event) : bool :=
  match ev with
  | ClickDeleteIcon _ => true
  | _ => false
  end.

Definition pressesDelete (ev : Event) : bool :=
  match ev with
  | ClickDelete => true
  | _ => false
  end.

Definition isSubmit (ev : Event) : bool :=
  match ev with
  | ClickAdd _ => true
  | _ => false
  end.

Definition submitsValid (ev : Event) : bool :=
  match ev with
  | ClickAdd newJob => validDraft newJob
  | _ => false
  end.

(** ** The Status select *)

(** [job.Status ? 'Active' : 'Inactive'], the value shown by the select. *)
Definition statusLabel (b : bool) : string :=
  if b then "Active" else "Inactive".

(** [e.target.value === 'Active'] *)
Definition statusOfLabel (v : string) : bool := String.eqb v "Active".

(** ** The inline handlers *)

(** The value passed to [handleJobFieldChange]: [e.target.value], or the
    boolean [e.target.checked] / [e.target.value === 'Active']. *)
Inductive CellValue :=
| TextValue (v : string)
| BoolValue (b : bool).

(** Invocations of the callback props made by the inline handlers; the
    fourth argument of [handleJobFieldChange] is absent for the text cells. *)
Inductive PropCall :=
| SetFilters (fs : FilterSet.t)
| SetNewJob (draft : NewJob.t)
| HandleJobFieldChange (id field : string) (value : CellValue)
    (type : option string)
| HandleUpdateJob (updatedJob : option Job.t).

(** The props read by the inline handlers. *)
Record Props := mkProps {
  filters : FilterSet.t;
  jobs : list Job.t;
  newJob : NewJob.t
}.

(** The text cells of a table row. *)
Inductive TextColumn :=
| ColPosition | ColCompany | ColPhase | ColNote | ColAppliedDate.

(** The field name the cell passes to [handleJobFieldChange]. *)
Definition columnKey (c : TextColumn) : string :=
  match c with
  | ColPosition => "Position"
  | ColCompany => "Company"
  | ColPhase => "Phase"
  | ColNote => "Note"
  | ColAppliedDate => "Applied date"
  end.

#[global] Instance Field_eq_dec : EqDecision Field.
Proof. solve_decision. Defined.

(** [{ ...filters, K: v }] for the key [K] of the filter control. *)
Definition setFilter (fs : FilterSet.t) (f : Field) (v : string) : FilterSet.t :=
  let (p, c, ph, cl, st, n, d) := fs in
  match f with
  | FPosition => FilterSet.mk v c ph cl st n d
  | FCompany => FilterSet.mk p v ph cl st n d
  | FPhase => FilterSet.mk p c v cl st n d
  | FCL => FilterSet.mk p c ph v st n d
  | FStatus => FilterSet.mk p c ph cl v n d
  | FNote => FilterSet.mk p c ph cl st v d
  | FAppliedDate => FilterSet.mk p c ph cl st n v
  end.

(** [{ ...newJob, Status: b }] *)
Definition setDraftStatus (draft : NewJob.t) (b : bool) : NewJob.t :=
  {| NewJob.Position := NewJob.Position draft;
     NewJob.Company := NewJob.Company draft;
     NewJob.Phase := NewJob.Phase draft;
     NewJob.CL := NewJob.CL draft;
     NewJob.Status := b;
     NewJob.Note := NewJob.Note draft;
     NewJob.Applied_date := NewJob.Applied_date draft |}.

(** The controls whose handler is written inline in the JSX, with the
    value carried by the DOM event. *)
Inductive Control :=
| FilterChange (f : Field) (value : string)
| CellChange (j : Job.t) (c : TextColumn) (value : string)
| CLChange (j : Job.t) (checked : bool)
| StatusChange (j : Job.t) (value : string)
| ClickEdit (j : Job.t)
| NewJobStatusChange (value : string).

(** The callback invoked by the control, with its arguments. *)
Definition fire (p : Props) (c : Control) : PropCall :=
  match c with
  | FilterChange f value => SetFilters (setFilter (filters p) f value)
  | CellChange j c value =>
      HandleJobFieldChange (Job._id j) (columnKey c) (TextValue value) None
  | CLChange j checked =>
      HandleJobFieldChange (Job._id j) "CL" (BoolValue checked) (Some "checkbox")
  | StatusChange j value =>
      HandleJobFieldChange (Job._id j) "Status"
        (BoolValue (statusOfLabel value)) (Some "select")
  | ClickEdit j =>
      let updatedJob :=
        List.find (λ j', String.eqb (Job._id j') (Job._id j)) (jobs p) in
      HandleUpdateJob updatedJob
  | NewJobStatusChange value =>
      SetNewJob (setDraftStatus (newJob p) (statusOfLabel value))
  end.

(** ** The view as a whole *)

(** A user action: on a control wired to a handler of the component, or on
    a control with an inline handler, with the props of the render in which
    it happens. *)
Inductive Action :=
| OnHandler (ev : Event)
| OnInline (p : Props) (c : Control).

(** The local state with the log of the calls of [handleChange],
    [handleAddJob] and [handleDeleteJob], and the log of the calls made by
    the inline handlers. *)
Record ViewState := mkViewState {
  local : State;
  propCalls : list PropCall
}.

Definition act (v : ViewState) (a : Action) : ViewState :=
  match a with
  | OnHandler ev => {| local := step (local v) ev; propCalls := propCalls v |}
  | OnInline p c => {| local := local v; propCalls := propCalls v ++ [fire p c] |}
  end.

Definition play (v : ViewState) (acts : list Action) : ViewState :=
  foldl act v acts.

(** The change event of an action on one of the six inputs of the add-new
    row that are wired to [handleNewJobChange]. *)
Definition changeOfAction (a : Action) : option ChangeEvent :=
  match a with
  | OnHandler ev => changeOfEvent ev
  | OnInline _ _ => None
  end.

(** The two options of a Status select. *)
Definition statusOptions : list string := ["Active"; "Inactive"].

(** ** The table body *)

Inductive BodyRow :=
| NoJobsRow
| JobRow (j : Job.t)
| AddRow.

(** The children of [TableBody]: the placeholder under
    [filteredJobs.length === 0 &&], one row per filtered job, the add-new
    row. *)
Definition tableBody (filteredJobs : list Job.t) : list BodyRow :=
  (if bool_decide (length filteredJobs = 0) then [NoJobsRow] else [])
  ++ (JobRow <$> filteredJobs)
  ++ [AddRow].

Definition jobOfRow (r : BodyRow) : option Job.t :=
  match r with
  | JobRow j => Some j
  | _ => None
  end.

(** ** Logout *)

(** What [handleLogout] acts on: [localStorage] and [window.location.href]. *)
Record Browser := mkBrowser {
  localStorage : gmap string string;
  location_href : string
}.

Definition handleLogout (b : Browser) : Browser :=
  {| localStorage := delete "token" (localStorage b);
     location_href := "/users/login" |}.

(** * Properties of the component *)

(** Equal lists that differ in the bracketing of [++] and [::]. *)
Ltac reassoc :=
  repeat (rewrite <- app_assoc || rewrite <- app_comm_cons); reflexivity.

Lemma truthy_false (s : string) : truthy s = false ↔ s = "".
Proof. destruct s; simpl; split; congruence. Qed.

Lemma truthy_true (s : string) : truthy s = true ↔ s ≠ "".
Proof. destruct s; simpl; split; congruence. Qed.

(** ** The add-new row *)

Lemma validationErrors_is_Some (newJob : NewJob.t) (k : string) :
  is_Some (validationErrors newJob !! k) ↔ requiredEmpty newJob k.
Proof.
  unfold validationErrors, requiredEmpty.
  destruct newJob as [p c ph cl st n d]; simpl.
  destruct p, c, d; simpl;
    rewrite ?lookup_insert_is_Some';
    (split;
     [ intros H; repeat (destruct H as [<-|H]; [auto|]);
       destruct H as [? H]; by rewrite lookup_empty in H
     | intuition (subst; auto; try discriminate) ]).
Qed.

Lemma validationErrors_message (newJob : NewJob.t) (k msg : string) :
  validationErrors newJob !! k = Some msg → truthy msg = true.
Proof.
  unfold validationErrors.
  destruct newJob as [p c ph cl st n d]; simpl.
  destruct p, c, d; simpl; intros H;
    repeat (apply lookup_insert_Some in H; destruct H as [[_ <-]|[_ H]];
            [reflexivity|]);
    by rewrite lookup_empty in H.
Qed.

Lemma validationErrors_size (newJob : NewJob.t) :
  size (validationErrors newJob) = 0 ↔
  NewJob.Position newJob ≠ "" ∧ NewJob.Company newJob ≠ ""
  ∧ NewJob.Applied_date newJob ≠ "".
Proof.
  rewrite map_size_empty_iff. split.
  - intros He.
    assert (Hno : ∀ k, ¬ requiredEmpty newJob k).
    { intros k Hk. apply validationErrors_is_Some in Hk.
      rewrite He, lookup_empty in Hk. by destruct Hk. }
    unfold requiredEmpty in Hno. repeat split; intros Hf.
    + apply (Hno "Position"); auto.
    + apply (Hno "Company"); auto.
    + apply (Hno "Applied date"); auto.
  - intros (Hp & Hc & Hd). apply map_eq. intros k.
    rewrite lookup_empty. apply eq_None_not_Some.
    rewrite validationErrors_is_Some. unfold requiredEmpty.
    intros [[_ H]|[[_ H]|[_ H]]]; auto.
Qed.

Lemma exec_handleAddJobWithValidation (newJob : NewJob.t) (s : State) :
  exec (handleAddJobWithValidation newJob) s =
  {| deleteDialog := deleteDialog s;
     addError := validationErrors newJob;
     calls := if bool_decide (size (validationErrors newJob) = 0)
              then calls s ++ [HandleAddJob] else calls s |}.
Proof.
  unfold exec, handleAddJobWithValidation, when. simpl.
  unfold mbind, M_bind, setAddError. simpl.
  by case_bool_decide.
Qed.

(** C1: submitting the add-new row with an empty Position, Company or
    Applied date does not call [handleAddJob] and leaves an error map whose
    keys are exactly the empty required fields, each with a non-empty
    message; with the three fields filled in, [handleAddJob] is called. *)
Theorem handleAddJobWithValidation_required (newJob : NewJob.t) (s : State) :
  let s' := exec (handleAddJobWithValidation newJob) s in
  (∀ k, is_Some (addError s' !! k) ↔ requiredEmpty newJob k)
  ∧ (∀ k msg, addError s' !! k = Some msg → truthy msg = true)
  ∧ (NewJob.Position newJob = "" ∨ NewJob.Company newJob = ""
     ∨ NewJob.Applied_date newJob = "" → calls s' = calls s)
  ∧ (NewJob.Position newJob ≠ "" ∧ NewJob.Company newJob ≠ ""
     ∧ NewJob.Applied_date newJob ≠ "" → calls s' = calls s ++ [HandleAddJob]).
Proof.
  intros s'. subst s'. rewrite exec_handleAddJobWithValidation. simpl.
  split; [apply validationErrors_is_Some|].
  split; [apply validationErrors_message|].
  split.
  - intros Hempty. case_bool_decide as Hsz; [|done].
    apply validationErrors_size in Hsz as (Hp & Hc & Hd).
    destruct Hempty as [H|[H|H]]; auto; contradiction.
  - intros Hfull. case_bool_decide as Hsz; [done|].
    by apply validationErrors_size in Hfull.
Qed.

Lemma handleAddJobWithValidation_required_witness :
  let newJob := NewJob.mk "" "Acme" "" false true "" "2024-01-01" in
  let s' := exec (handleAddJobWithValidation newJob) initial in
  is_Some (addError s' !! "Position") ∧ calls s' = [].
Proof.
  intros newJob s'.
  destruct (handleAddJobWithValidation_required newJob initial)
    as (Hkeys & _ & Hblocked & _).
  split.
  - apply Hkeys. left. split; reflexivity.
  - apply Hblocked. left. reflexivity.
Defined.

(** C9: a submission replaces the whole error map with the errors of the
    current draft, whatever the map held before; the entry of a field that
    is filled in now is gone. *)
Theorem handleAddJobWithValidation_replaces_errors
    (newJob : NewJob.t) (s : State) :
  let s' := exec (handleAddJobWithValidation newJob) s in
  addError s' = validationErrors newJob
  ∧ (∀ k, addError s' !! k = addError (exec (handleAddJobWithValidation newJob) initial) !! k)
  ∧ (∀ k, ¬ requiredEmpty newJob k → addError s' !! k = None).
Proof.
  intros s'. subst s'. rewrite !exec_handleAddJobWithValidation. simpl.
  split; [done|]. split; [done|].
  intros k Hk. apply eq_None_not_Some. by rewrite validationErrors_is_Some.
Qed.

Lemma handleAddJobWithValidation_replaces_errors_witness :
  let stale := {| deleteDialog := deleteDialog initial;
                  addError := {[ "Position" := "Position is required" ]};
                  calls := [] |} in
  let newJob := NewJob.mk "SWE" "" "" false true "" "2024-01-01" in
  addError (exec (handleAddJobWithValidation newJob) stale) !! "Position" = None.
Proof.
  intros stale newJob.
  apply (handleAddJobWithValidation_replaces_errors newJob stale).
  unfold requiredEmpty. simpl. intros [[_ H]|[[H _]|[H _]]]; discriminate H.
Defined.

(** C8: editing a field of the add-new row sets that field's entry of the
    error map to the empty string, for every field name and every prior
    error map; the other entries are kept. *)
Theorem handleNewJobChange_clears_error (e : ChangeEvent) (s : State) :
  let s' := exec (handleNewJobChange e) s in
  addError s' !! target_name e = Some ""
  ∧ (∀ k, k ≠ target_name e → addError s' !! k = addError s !! k).
Proof.
  intros s'. subst s'. unfold exec, handleNewJobChange. simpl.
  split.
  - apply lookup_insert_eq.
  - intros k Hk. by apply lookup_insert_ne.
Qed.

(** ** The delete-confirmation dialog *)

Lemma exec_confirmDelete (s : State) :
  exec confirmDelete s =
  {| deleteDialog := {| open := false; job := None |};
     addError := addError s;
     calls := match job (deleteDialog s) with
              | Some j => calls s ++ [HandleDeleteJob (Job._id j)]
              | None => calls s
              end |}.
Proof.
  unfold exec, confirmDelete. simpl.
  unfold mbind, M_bind, fmap, M_fmap, rendered. simpl.
  by destruct (job (deleteDialog s)).
Qed.

(** Opening the dialog for a row and pressing Delete calls the delete
    handler with the [_id] of that row. *)
Lemma confirm_after_open (s : State) (j : Job.t) :
  calls (run s [ClickDeleteIcon j; ClickDelete])
  = calls s ++ [HandleDeleteJob (Job._id j)].
Proof.
  change (run s [ClickDeleteIcon j; ClickDelete])
    with (exec confirmDelete (step s (ClickDeleteIcon j))).
  by rewrite exec_confirmDelete.
Qed.

Lemma run_snoc (s : State) (evs : list Event) (ev : Event) :
  run s (evs ++ [ev]) = step (run s evs) ev.
Proof. unfold run. apply foldl_snoc. Qed.

Lemma pendingFrom_snoc (evs : list Event) (ev : Event) (j : Job.t) :
  touchesDialog ev = false → pendingFrom evs j → pendingFrom (evs ++ [ev]) j.
Proof.
  intros Hev (pre & mid & -> & Hmid).
  exists pre, (mid ++ [ev]). split.
  - reassoc.
  - apply Forall_app. split; [done|]. by constructor.
Qed.

Lemma pendingFrom_open (evs : list Event) (j : Job.t) :
  pendingFrom (evs ++ [ClickDeleteIcon j]) j.
Proof. exists evs, []. split; [done|constructor]. Qed.

Lemma confirmedIn_snoc (evs : list Event) (ev : Event) (ident : string) :
  confirmedIn evs ident → confirmedIn (evs ++ [ev]) ident.
Proof.
  intros (pre & j & mid & post & -> & Hid & Hmid).
  exists pre, j, mid, (post ++ [ev]). split; [|done].
  reassoc.
Qed.

Lemma confirmedIn_confirm (evs : list Event) (j : Job.t) :
  pendingFrom evs j → confirmedIn (evs ++ [ClickDelete]) (Job._id j).
Proof.
  intros (pre & mid & -> & Hmid).
  exists pre, j, mid, []. split; [|done].
  reassoc.
Qed.

(** What every reachable state records about the events that led to it. *)
Lemma run_history (evs : list Event) :
  (∀ j, job (deleteDialog (run initial evs)) = Some j → pendingFrom evs j)
  ∧ (∀ ident, HandleDeleteJob ident ∈ calls (run initial evs) →
              confirmedIn evs ident).
Proof.
  induction evs as [|ev evs [IHjob IHcalls]] using rev_ind.
  - split; [discriminate|]. intros ident H. by apply elem_of_nil in H.
  - rewrite run_snoc. set (s := run initial evs) in *.
    destruct ev as [j'| | | |e|newJob]; unfold step; simpl dispatch.
    + split.
      * intros j [= <-]. apply pendingFrom_open.
      * intros ident H. apply confirmedIn_snoc, IHcalls, H.
    + split; [discriminate|].
      intros ident H. apply confirmedIn_snoc, IHcalls, H.
    + split; [discriminate|].
      intros ident H. apply confirmedIn_snoc, IHcalls, H.
    + rewrite exec_confirmDelete. simpl. split; [discriminate|].
      intros ident H. destruct (job (deleteDialog s)) as [j|] eqn:Hjob.
      * apply elem_of_app in H as [H|H].
        -- apply confirmedIn_snoc, IHcalls, H.
        -- apply list_elem_of_singleton in H as [= ->].
           apply confirmedIn_confirm, IHjob. reflexivity.
      * apply confirmedIn_snoc, IHcalls, H.
    + split.
      * intros j H. apply pendingFrom_snoc; [done|]. apply IHjob, H.
      * intros ident H. apply confirmedIn_snoc, IHcalls.
        unfold exec, handleNewJobChange in H. simpl in H.
        apply elem_of_app in H as [H|H]; [done|].
        by apply list_elem_of_singleton in H.
    + rewrite exec_handleAddJobWithValidation. simpl. split.
      * intros j H. apply pendingFrom_snoc; [done|]. apply IHjob, H.
      * intros ident H. apply confirmedIn_snoc, IHcalls.
        case_bool_decide; [|done].
        apply elem_of_app in H as [H|H]; [done|].
        by apply list_elem_of_singleton in H.
Qed.

(** C3: a click on the delete icon of a row does not call
    [handleDeleteJob], nor does Cancel or closing the dialog; along every
    sequence of user actions from the initial state, each call
    [handleDeleteJob(id)] comes from a press of the dialog's Delete button
    while the dialog was open for a row with that id. *)
Theorem delete_needs_confirmation :
  (∀ s j, calls (step s (ClickDeleteIcon j)) = calls s)
  ∧ (∀ s, calls (step s ClickCancel) = calls s)
  ∧ (∀ s, calls (step s DialogClose) = calls s)
  ∧ (∀ evs ident, HandleDeleteJob ident ∈ calls (run initial evs) →
                  confirmedIn evs ident).
Proof.
  split; [reflexivity|]. split; [reflexivity|]. split; [reflexivity|].
  intros evs ident. apply run_history.
Qed.

Lemma delete_needs_confirmation_witness :
  let row := Job.mk "a1" "SWE" "Acme" "" false true "" "2024-01-01" in
  calls (run initial [ClickDeleteIcon row; ClickCancel]) = []
  ∧ confirmedIn [ClickDeleteIcon row; ClickDelete] "a1".
Proof.
  intros row. split; [reflexivity|].
  destruct delete_needs_confirmation as (_ & _ & _ & Htrace).
  apply Htrace. apply list_elem_of_singleton. reflexivity.
Defined.

(** C10: with no pending row, [confirmDelete] does not call
    [handleDeleteJob]: it only sets the dialog to closed with no pending
    row; and after every confirm or cancel the dialog is closed with no
    pending row. *)
Theorem confirmDelete_without_pending_job (s : State) :
  (job (deleteDialog s) = None →
   exec confirmDelete s =
   {| deleteDialog := {| open := false; job := None |};
      addError := addError s;
      calls := calls s |})
  ∧ deleteDialog (exec confirmDelete s) = {| open := false; job := None |}
  ∧ deleteDialog (exec closeDeleteDialog s) = {| open := false; job := None |}.
Proof.
  rewrite exec_confirmDelete. split; [|done].
  by intros ->.
Qed.

Lemma confirmDelete_without_pending_job_witness :
  calls (exec confirmDelete initial) = [].
Proof.
  destruct (confirmDelete_without_pending_job initial) as [Hnone _].
  rewrite Hnone; reflexivity.
Defined.

(** * Properties of the helpers and of the backend contract *)

(** ** Date normalization *)

Lemma substring_0_idem (n : nat) (s : string) :
  String.substring 0 n (String.substring 0 n s) = String.substring 0 n s.
Proof.
  revert s. induction n as [|n IH]; intros [|c s]; simpl; try reflexivity.
  by rewrite IH.
Qed.

Lemma truthy_substring (n : nat) (s : string) :
  truthy (String.substring 0 (S n) s) = truthy s.
Proof. by destruct s. Qed.

Lemma isYMD_substring (s : string) :
  isYMD s = true → String.substring 0 10 s = s.
Proof.
  intros H.
  do 10 (destruct s as [|? s]; [discriminate H|]).
  destruct s; [reflexivity|discriminate H].
Qed.

Lemma getDateValue_idem (x : string) :
  getDateValue (getDateValue x) = getDateValue x.
Proof.
  unfold getDateValue. destruct (truthy x) eqn:Hx; [|reflexivity].
  by rewrite truthy_substring, Hx, substring_0_idem.
Qed.

Lemma getDateValue_form (x : string) :
  accepted x = true → getDateValue x = "" ∨ isYMD (getDateValue x) = true.
Proof.
  unfold accepted, getDateValue. intros H.
  destruct (truthy x) eqn:Hx; [right|by left].
  simpl in H. apply orb_true_iff in H as [H|H].
  - by rewrite (isYMD_substring _ H).
  - unfold isISO in H. by apply andb_true_iff in H as [H _].
Qed.

(** C7: [getDateValue] maps the empty string to the empty string; on every
    accepted input (empty, [YYYY-MM-DD], ISO date-time string) its result is
    empty or of the form [YYYY-MM-DD], and normalizing the result again
    gives the same result. *)
Theorem getDateValue_idempotent :
  getDateValue "" = ""
  ∧ ∀ x, accepted x = true →
      getDateValue (getDateValue x) = getDateValue x
      ∧ (getDateValue x = "" ∨ isYMD (getDateValue x) = true).
Proof.
  split; [reflexivity|]. intros x Hx. split.
  - apply getDateValue_idem.
  - by apply getDateValue_form.
Qed.

Lemma getDateValue_idempotent_witness :
  getDateValue (getDateValue "2024-01-01T00:00:00.000Z")
  = getDateValue "2024-01-01T00:00:00.000Z"
  ∧ (getDateValue "2024-01-01T00:00:00.000Z" = ""
     ∨ isYMD (getDateValue "2024-01-01T00:00:00.000Z") = true).
Proof.
  destruct getDateValue_idempotent as [_ H].
  apply H. reflexivity.
Defined.

(** ** Filter engine *)

Lemma startsWith_spec {C} `{EqDecision C} (l p : list C) :
  startsWith l p = true ↔ ∃ post, l = p ++ post.
Proof.
  revert l. induction p as [|x p IH]; intros l; simpl.
  - split; eauto.
  - destruct l as [|y l].
    + split; [discriminate|]. intros [post H']. discriminate H'.
    + rewrite andb_true_iff, bool_decide_eq_true, IH. split.
      * intros [-> [post ->]]. by exists post.
      * intros [post [= -> ->]]. split; [done|]. by exists post.
Qed.

Lemma includes_unfold {C} `{EqDecision C} (hay needle : list C) :
  includes hay needle =
  startsWith hay needle
  || match hay with
     | [] => false
     | _ :: hay' => includes hay' needle
     end.
Proof. by destruct hay. Qed.

Lemma includes_spec {C} `{EqDecision C} (hay needle : list C) :
  includes hay needle = true ↔ ∃ pre post, hay = pre ++ needle ++ post.
Proof.
  induction hay as [|c hay IH];
    rewrite includes_unfold, orb_true_iff, startsWith_spec.
  - split.
    + intros [[post H']|H']; [|discriminate H']. by exists [], post.
    + intros (pre & post & H'). left.
      destruct pre; [by exists post|discriminate H'].
  - rewrite IH. split.
    + intros [[post H']|(pre & post & H')].
      * by exists [], post.
      * exists (c :: pre), post. simpl. by rewrite H'.
    + intros (pre & post & H'). destruct pre as [|c' pre]; simpl in H'.
      * left. by exists post.
      * right. injection H' as _ H'. by exists pre, post.
Qed.

(** Two texts have the same lower-case form exactly when they agree
    character by character up to case. *)
Lemma fmap_lower_eq {C} (lower' : C → C) (caseVariant : C → C → Prop)
    (l k : list C) :
  (∀ a b, lower' a = lower' b ↔ caseVariant a b) →
  lower' <$> l = lower' <$> k ↔ Forall2 caseVariant l k.
Proof.
  intros Hfold. revert k. induction l as [|a l IH]; intros [|b k].
  - split; [constructor|done].
  - split; [discriminate|]. intros H. inversion H.
  - split; [discriminate|]. intros H. inversion H.
  - rewrite !fmap_cons. split.
    + intros [= Hab Hlk]. constructor; [by apply Hfold|by apply IH].
    + intros H. inversion H as [|? ? ? ? Hab Hlk]; subst.
      f_equal; [by apply Hfold|by apply IH].
Qed.

Lemma textMatch_spec (A : Alphabet) (caseVariant : char A → char A → Prop)
    (v fieldValue : string) :
  (∀ a b, lower A a = lower A b ↔ caseVariant a b) →
  textMatch A v fieldValue = true
  ↔ (v ≠ "" → containsCI A caseVariant fieldValue v).
Proof.
  intros Hfold.
  assert (Hin : includes (EqDecision0 := char_eq_dec A)
                  (toLowerCase A fieldValue) (toLowerCase A v) = true
                ↔ containsCI A caseVariant fieldValue v).
  { rewrite includes_spec. unfold toLowerCase, containsCI. split.
    - intros (pre' & post' & H).
      apply fmap_app_inv in H as (pre & rest & _ & Hrest & Hfield).
      symmetry in Hrest.
      apply fmap_app_inv in Hrest as (mid & post & Hmid & _ & ->).
      exists pre, mid, post. split; [done|].
      by apply (fmap_lower_eq (lower A)).
    - intros (pre & mid & post & -> & Hmid).
      exists (lower A <$> pre), (lower A <$> post).
      rewrite !fmap_app. do 2 f_equal.
      by apply (fmap_lower_eq (lower A) caseVariant). }
  unfold textMatch. rewrite orb_true_iff, Hin.
  destruct v as [|c v]; simpl.
  - split; [done|auto].
  - split.
    + intros [H|H]; [discriminate H|]. by intros _.
    + intros H. right. by apply H.
Qed.

Lemma boolMatch_spec (interp : string → bool) (v : string) (b : bool) :
  boolMatch interp v b = true ↔ (v ≠ "" → b = interp v).
Proof.
  unfold boolMatch. rewrite orb_true_iff, Bool.eqb_true_iff.
  destruct v as [|c v]; simpl.
  - split; [done|auto].
  - split.
    + intros [H|H]; [discriminate H|]. by intros _.
    + intros H. right. symmetry. by apply H.
Qed.

(** The reading of a select value as a boolean: the flag equals the
    reading exactly when it is set for the option that stands for true. *)
Lemma reading_spec (option_true v : string) (b : bool) :
  b = String.eqb v option_true ↔ (b = true ↔ v = option_true).
Proof.
  destruct (String.eqb_spec v option_true) as [->|Hne], b; split;
    try done; intros H.
  - by destruct H as [_ H'%(λ H', H' eq_refl)].
  - by destruct H as [H'%(λ H', H' eq_refl) _].
Qed.

Lemma dateMatch_spec (v fieldValue : string) :
  dateMatch v fieldValue = true ↔ (v ≠ "" → getDateValue fieldValue = v).
Proof.
  unfold dateMatch. rewrite orb_true_iff, String.eqb_eq.
  destruct v as [|c v]; simpl.
  - split; [done|auto].
  - split.
    + intros [H|H]; [discriminate H|]. by intros _.
    + intros H. right. by apply H.
Qed.

(** C2: for every alphabet whose lower-case form identifies exactly the
    characters that are the same letter up to case, a record passes a
    FilterSet exactly when every filter field with a non-empty value is
    satisfied by the record: case-insensitive substring containment for
    Position, Company, Phase and Note, equality with the filter value read
    as a boolean for CL and Status, equality of the normalized date with
    the filter value for Applied date. *)
Theorem passes_iff_match_rules
    (A : Alphabet) (caseVariant : char A → char A → Prop)
    (filters : FilterSet.t) (j : Job.t) :
  (∀ a b, lower A a = lower A b ↔ caseVariant a b) →
  passes A filters j = true ↔
  ∀ f, filterValue filters f ≠ "" →
       matchRule A caseVariant f (filterValue filters f) j.
Proof.
  intros Hfold. unfold passes.
  rewrite !andb_true_iff, !(textMatch_spec A caseVariant) by done.
  rewrite !boolMatch_spec, dateMatch_spec.
  unfold clOfFilter, statusOfFilter. rewrite !reading_spec.
  split.
  - intros ((((((Hp & Hc) & Hph) & Hcl) & Hst) & Hn) & Hd) f.
    destruct f; simpl; assumption.
  - intros H.
    exact (conj (conj (conj (conj (conj (conj
             (H FPosition) (H FCompany)) (H FPhase)) (H FCL)) (H FStatus))
             (H FNote)) (H FAppliedDate)).
Qed.

Lemma lowerN_caseVariantN (a b : N) : lowerN a = lowerN b ↔ caseVariantN a b.
Proof.
  unfold caseVariantN, capitalSmall, lowerN, isCapital.
  repeat match goal with
         | |- context [N.leb ?x ?y] => destruct (N.leb_spec x y)
         | |- context [N.eqb ?x ?y] => destruct (N.eqb_spec x y)
         end; simpl; lia.
Qed.

Example textMatch_latin1_capitals :
  textMatch latin1 "zürich" "Head of IT, ZÜRICH" = true
  ∧ textMatch latin1 "ÉCOLE" "école normale" = true
  ∧ textMatch latin1 "bern" "Head of IT, ZÜRICH" = false.
Proof. vm_compute. done. Qed.

Lemma passes_iff_match_rules_witness :
  let filters := FilterSet.mk "zürich" "" "" "true" "" "" "" in
  let j := Job.mk "a1" "Head of IT, ZÜRICH" "Acme" "" true false ""
             "2024-01-01" in
  passes latin1 filters j = true ↔
  ∀ f, filterValue filters f ≠ "" →
       matchRule latin1 caseVariantN f (filterValue filters f) j.
Proof.
  intros filters j.
  apply (passes_iff_match_rules latin1 caseVariantN filters j).
  exact lowerN_caseVariantN.
Defined.

Lemma filterJobs_empty (A : Alphabet) (jobs : list Job.t) :
  filterJobs A FilterSet.empty jobs = jobs.
Proof.
  unfold filterJobs. induction jobs as [|j jobs IH]; simpl; [done|].
  by rewrite IH.
Qed.

Lemma filterJobs_idem (A : Alphabet) (filters : FilterSet.t)
    (jobs : list Job.t) :
  filterJobs A filters (filterJobs A filters jobs) = filterJobs A filters jobs.
Proof.
  unfold filterJobs. induction jobs as [|j jobs IH]; simpl; [done|].
  destruct (passes A filters j) eqn:Hj; simpl; [|done].
  by rewrite Hj, IH.
Qed.

Lemma filterJobs_sublist (A : Alphabet) (filters : FilterSet.t)
    (jobs : list Job.t) :
  filterJobs A filters jobs `sublist_of` jobs.
Proof.
  unfold filterJobs. induction jobs as [|j jobs IH]; simpl; [constructor|].
  destruct (passes A filters j); by constructor.
Qed.

Lemma filterJobs_elem_of (A : Alphabet) (filters : FilterSet.t)
    (jobs : list Job.t) (j : Job.t) :
  j ∈ filterJobs A filters jobs ↔ j ∈ jobs ∧ passes A filters j = true.
Proof.
  unfold filterJobs. rewrite !list_elem_of_In. apply filter_In.
Qed.

(** C6: with every filter field empty the filtered view is the input list
    itself; for every FilterSet the view is a function of its two inputs
    only, filtering it again changes nothing, and it is a sublist of the
    input (the records that pass, in the order of the input). *)
Theorem filterJobs_empty_idempotent_ordered
    (A : Alphabet) (filters : FilterSet.t) (jobs : list Job.t) :
  filterJobs A FilterSet.empty jobs = jobs
  ∧ filterJobs A filters (filterJobs A filters jobs) = filterJobs A filters jobs
  ∧ filterJobs A filters jobs `sublist_of` jobs
  ∧ ∀ j, j ∈ filterJobs A filters jobs ↔ j ∈ jobs ∧ passes A filters j = true.
Proof.
  split; [apply filterJobs_empty|].
  split; [apply filterJobs_idem|].
  split; [apply filterJobs_sublist|].
  intros j. apply filterJobs_elem_of.
Qed.

(** ** CRUD API layer *)

Lemma findOwned_Some (owner ident : string) (store : gmap string Api.JobRecord)
    (r : Api.JobRecord) :
  Api.findOwned owner ident store = Some r ↔
  store !! ident = Some r ∧ Api.ownerId r = owner.
Proof.
  unfold Api.findOwned. destruct (store !! ident) as [r0|].
  - case_bool_decide as Ho.
    + split; [by intros [= ->]|]. by intros [[= ->] _].
    + split; [discriminate|]. intros [[= ->] Hr]. contradiction.
  - split; [discriminate|]. intros [H _]. discriminate H.
Qed.

Lemma findOwned_None (owner ident : string) (store : gmap string Api.JobRecord) :
  Api.findOwned owner ident store = None ↔
  store !! ident = None
  ∨ ∃ r, store !! ident = Some r ∧ Api.ownerId r ≠ owner.
Proof.
  unfold Api.findOwned. destruct (store !! ident) as [r0|].
  - case_bool_decide as Ho.
    + split; [discriminate|].
      intros [H|(r & [= ->] & Hne)]; [discriminate H|contradiction].
    + split; [|done]. intros _. right. by exists r0.
  - split; [|done]. by left.
Qed.

(** C4: Update and Delete on an [id] that is not in the store, or that
    belongs to a record of another owner, fail with [NotFoundError] and
    return the store as it was. *)
Theorem update_delete_not_found
    (owner ident : string) (p : Api.PartialFields)
    (store : gmap string Api.JobRecord) :
  store !! ident = None
  ∨ (∃ r, store !! ident = Some r ∧ Api.ownerId r ≠ owner) →
  Api.Update owner ident p store = (inl Api.NotFoundError, store)
  ∧ Api.Delete owner ident store = (inl Api.NotFoundError, store).
Proof.
  intros H. apply findOwned_None in H.
  unfold Api.Update, Api.Delete. by rewrite H.
Qed.

Lemma update_delete_not_found_witness :
  let r := Api.mkJobRecord "j1" "alice" "SWE" "Acme" "" false true ""
             "2024-01-01" in
  let store : gmap string Api.JobRecord := {[ "j1" := r ]} in
  let p := Api.mkPartialFields None None None None (Some false) None None in
  Api.Update "bob" "j1" p store = (inl Api.NotFoundError, store)
  ∧ Api.Delete "bob" "j1" store = (inl Api.NotFoundError, store).
Proof.
  intros r store p.
  apply (update_delete_not_found "bob" "j1" p store).
  right. exists r. split.
  - apply lookup_singleton_eq.
  - discriminate.
Defined.

Lemma mergeFields_fieldOf (p : Api.PartialFields) (r : Api.JobRecord)
    (f : Api.UField) :
  Api.fieldOf f (Api.mergeFields p r)
  = default (Api.fieldOf f r) (Api.requested f p).
Proof.
  destruct p as [po co pho clo sto no ado], f; simpl.
  - by destruct po.
  - by destruct co.
  - by destruct pho.
  - by destruct clo.
  - by destruct sto.
  - by destruct no.
  - by destruct ado.
Qed.

(** C5: an Update of a record the caller owns succeeds and returns and
    stores the merged record: each field supplied in the request has the
    supplied value, each field not supplied keeps its value, [id] and
    [ownerId] are kept, and every other record of the store is as before. *)
Theorem update_merges_supplied_fields
    (owner ident : string) (p : Api.PartialFields)
    (store : gmap string Api.JobRecord) (r : Api.JobRecord) :
  store !! ident = Some r →
  Api.ownerId r = owner →
  ∃ r' store',
    Api.Update owner ident p store = (inr r', store')
    ∧ store' !! ident = Some r'
    ∧ (∀ k, k ≠ ident → store' !! k = store !! k)
    ∧ Api.id r' = Api.id r
    ∧ Api.ownerId r' = Api.ownerId r
    ∧ ∀ f, Api.fieldOf f r' = match Api.requested f p with
                               | Some v => v
                               | None => Api.fieldOf f r
                               end.
Proof.
  intros Hr Ho.
  assert (Hfind : Api.findOwned owner ident store = Some r)
    by by apply findOwned_Some.
  exists (Api.mergeFields p r), (<[ident := Api.mergeFields p r]> store).
  unfold Api.Update. rewrite Hfind. split; [reflexivity|].
  split; [apply lookup_insert_eq|].
  split; [intros k Hk; by apply lookup_insert_ne|].
  split; [reflexivity|]. split; [reflexivity|].
  intros f. rewrite mergeFields_fieldOf. by destruct (Api.requested f p).
Qed.

Lemma update_merges_supplied_fields_witness :
  let r := Api.mkJobRecord "j1" "alice" "SWE" "Acme" "" false true ""
             "2024-01-01" in
  let store : gmap string Api.JobRecord := {[ "j1" := r ]} in
  let p := Api.mkPartialFields None None None None (Some false) None None in
  ∃ r' store',
    Api.Update "alice" "j1" p store = (inr r', store')
    ∧ store' !! "j1" = Some r'
    ∧ (∀ k, k ≠ "j1" → store' !! k = store !! k)
    ∧ Api.id r' = "j1"
    ∧ Api.ownerId r' = "alice"
    ∧ ∀ f, Api.fieldOf f r' = match Api.requested f p with
                               | Some v => v
                               | None => Api.fieldOf f r
                               end.
Proof.
  intros r store p.
  apply (update_merges_supplied_fields "alice" "j1" p store r).
  - apply lookup_singleton_eq.
  - reflexivity.
Defined.

(** * Properties of the event handlers along event sequences *)

Lemma run_cons (s : State) (ev : Event) (evs : list Event) :
  run s (ev :: evs) = run (step s ev) evs.
Proof. reflexivity. Qed.

Lemma run_app (s : State) (evs1 evs2 : list Event) :
  run s (evs1 ++ evs2) = run (run s evs1) evs2.
Proof. unfold run. apply foldl_app. Qed.

Lemma exec_handleNewJobChange (e : ChangeEvent) (s : State) :
  exec (handleNewJobChange e) s =
  {| deleteDialog := deleteDialog s;
     addError := <[target_name e := ""]> (addError s);
     calls := calls s ++ [HandleChange e] |}.
Proof. reflexivity. Qed.

Lemma validDraft_size (draft : NewJob.t) :
  bool_decide (size (validationErrors draft) = 0) = validDraft draft.
Proof.
  unfold validDraft. case_bool_decide as Hsz.
  - apply validationErrors_size in Hsz as (Hp & Hc & Hd).
    apply truthy_true in Hp, Hc, Hd. by rewrite Hp, Hc, Hd.
  - destruct (truthy (NewJob.Position draft)) eqn:Hp; [|done].
    destruct (truthy (NewJob.Company draft)) eqn:Hc; [|done].
    destruct (truthy (NewJob.Applied_date draft)) eqn:Hd; [|done].
    exfalso. apply Hsz, validationErrors_size.
    by rewrite <- !truthy_true.
Qed.

(** The calls made by one event. *)
Lemma calls_step (s : State) (ev : Event) :
  calls (step s ev) =
  calls s ++
  match ev with
  | ClickDelete =>
      match job (deleteDialog s) with
      | Some j => [HandleDeleteJob (Job._id j)]
      | None => []
      end
  | ChangeNewJob e => [HandleChange e]
  | ClickAdd draft => if validDraft draft then [HandleAddJob] else []
  | ClickDeleteIcon _ | DialogClose | ClickCancel => []
  end.
Proof.
  destruct ev as [j| | | |e|draft]; unfold step; simpl dispatch.
  - simpl. by rewrite app_nil_r.
  - simpl. by rewrite app_nil_r.
  - simpl. by rewrite app_nil_r.
  - rewrite exec_confirmDelete. simpl.
    destruct (job (deleteDialog s)); [done|by rewrite app_nil_r].
  - done.
  - rewrite exec_handleAddJobWithValidation. simpl.
    rewrite validDraft_size.
    destruct (validDraft draft); [done|by rewrite app_nil_r].
Qed.

Lemma step_keeps_dialog (s : State) (ev : Event) :
  touchesDialog ev = false → deleteDialog (step s ev) = deleteDialog s.
Proof.
  destruct ev; try discriminate; intros _; unfold step; simpl dispatch.
  - done.
  - by rewrite exec_handleAddJobWithValidation.
Qed.

Lemma step_keeps_errors (s : State) (ev : Event) :
  touchesDialog ev = true → addError (step s ev) = addError s.
Proof.
  destruct ev; try discriminate; intros _; unfold step; simpl dispatch;
    try done.
  by rewrite exec_confirmDelete.
Qed.

Lemma run_keeps_dialog (s : State) (evs : list Event) :
  Forall (λ ev, touchesDialog ev = false) evs →
  deleteDialog (run s evs) = deleteDialog s.
Proof.
  revert s. induction evs as [|ev evs IH]; intros s Hevs; [done|].
  inversion Hevs as [|? ? Hev Hrest]; subst.
  rewrite run_cons, IH by done. by apply step_keeps_dialog.
Qed.

Lemma run_keeps_errors (s : State) (evs : list Event) :
  Forall (λ ev, touchesDialog ev = true) evs →
  addError (run s evs) = addError s.
Proof.
  revert s. induction evs as [|ev evs IH]; intros s Hevs; [done|].
  inversion Hevs as [|? ? Hev Hrest]; subst.
  rewrite run_cons, IH by done. by apply step_keeps_errors.
Qed.

Lemma calls_run_mono (s : State) (evs : list Event) (c : Call) :
  c ∈ calls s → c ∈ calls (run s evs).
Proof.
  revert s. induction evs as [|ev evs IH]; intros s Hc; [done|].
  rewrite run_cons. apply IH. rewrite calls_step.
  apply elem_of_app. by left.
Qed.

Lemma reachable_dialog (evs : list Event) :
  deleteDialog (run initial evs) = {| open := false; job := None |}
  ∨ ∃ j, deleteDialog (run initial evs) = {| open := true; job := Some j |}.
Proof.
  induction evs as [|ev evs IH] using rev_ind; [by left|].
  rewrite run_snoc. destruct (touchesDialog ev) eqn:Hev.
  - destruct ev as [j| | | |e|draft]; try discriminate;
      unfold step; simpl dispatch.
    + right. by exists j.
    + by left.
    + by left.
    + left. by rewrite exec_confirmDelete.
  - by rewrite step_keeps_dialog.
Qed.

(** X1: in every state the component reaches, the dialog is open exactly
    when a row is pending. *)
Theorem dialog_open_iff_pending (evs : list Event) :
  open (deleteDialog (run initial evs)) = true
  ↔ is_Some (job (deleteDialog (run initial evs))).
Proof.
  destruct (reachable_dialog evs) as [Hd|[j Hd]]; rewrite Hd; simpl.
  - split; [discriminate|]. by intros [? ?].
  - split; [eauto|done].
Qed.

(** X2: when the dialog is opened for a row and Delete is pressed with
    nothing but add-row events in between, [handleDeleteJob] is called with
    the [_id] of that row, whatever came before and whatever follows. *)
Theorem confirmed_delete_is_issued
    (s : State) (evs : list Event) (ident : string) :
  confirmedIn evs ident → HandleDeleteJob ident ∈ calls (run s evs).
Proof.
  intros (pre & j & mid & post & -> & <- & Hmid).
  rewrite run_app, run_cons, run_app, run_cons.
  apply calls_run_mono. rewrite calls_step.
  rewrite run_keeps_dialog by done.
  apply elem_of_app. right. simpl. apply list_elem_of_singleton. reflexivity.
Qed.

Lemma confirmed_delete_is_issued_witness :
  let row := Job.mk "a1" "SWE" "Acme" "" false true "" "2024-01-01" in
  let e := mkChangeEvent "Note" "x" in
  HandleDeleteJob "a1"
  ∈ calls (run initial [ClickDeleteIcon row; ChangeNewJob e; ClickDelete]).
Proof.
  intros row e.
  apply (confirmed_delete_is_issued initial
           [ClickDeleteIcon row; ChangeNewJob e; ClickDelete] "a1").
  exists [], row, [ChangeNewJob e], [].
  split; [reflexivity|]. split; [reflexivity|].
  constructor; [reflexivity|constructor].
Defined.

Lemma delete_budget (evs : list Event) :
  (length (List.filter isDeleteCall (calls (run initial evs)))
   + match job (deleteDialog (run initial evs)) with
     | Some _ => 1
     | None => 0
     end
   ≤ length (List.filter opensDialog evs))%nat.
Proof.
  induction evs as [|ev evs IH] using rev_ind; [simpl; lia|].
  rewrite run_snoc, List.filter_app, length_app, calls_step.
  rewrite List.filter_app, length_app.
  destruct (touchesDialog ev) eqn:Hev.
  - destruct ev; try discriminate; unfold step at 1; simpl dispatch.
    + simpl. destruct (job (deleteDialog (run initial evs))); lia.
    + simpl. destruct (job (deleteDialog (run initial evs))); lia.
    + simpl. destruct (job (deleteDialog (run initial evs))); lia.
    + rewrite exec_confirmDelete. simpl.
      destruct (job (deleteDialog (run initial evs))); simpl in *; lia.
  - rewrite step_keeps_dialog by done.
    destruct ev as [| | | |e|draft]; try discriminate; simpl.
    + lia.
    + destruct (validDraft draft); simpl; lia.
Qed.

Lemma delete_presses (s : State) (evs : list Event) :
  (length (List.filter isDeleteCall (calls (run s evs)))
   ≤ length (List.filter isDeleteCall (calls s))
     + length (List.filter pressesDelete evs))%nat.
Proof.
  revert s. induction evs as [|ev evs IH]; intros s; [simpl; lia|].
  rewrite run_cons. etrans; [apply IH|].
  rewrite calls_step, List.filter_app, length_app.
  destruct ev as [j| | | |e|draft]; simpl; try lia.
  - destruct (job (deleteDialog s)); simpl; lia.
  - destruct (validDraft draft); simpl; lia.
Qed.

(** X3: along every sequence of user actions from the initial state, the
    number of [handleDeleteJob] calls is at most the number of times the
    dialog was opened and at most the number of presses of Delete: one
    opening of the dialog deletes at most once, however often Delete is
    pressed. *)
Theorem at_most_one_delete_per_opening (evs : list Event) :
  (length (List.filter isDeleteCall (calls (run initial evs)))
   ≤ length (List.filter opensDialog evs))%nat
  ∧ (length (List.filter isDeleteCall (calls (run initial evs)))
     ≤ length (List.filter pressesDelete evs))%nat.
Proof.
  split.
  - pose proof (delete_budget evs). lia.
  - apply (delete_presses initial evs).
Qed.

(** X4: the add-row events (typing, submitting) never change the dialog
    state, and the dialog events (opening, cancelling, closing, confirming)
    never change the error map. *)
Theorem dialog_and_form_independent (s : State) (evs : list Event) :
  (Forall (λ ev, touchesDialog ev = false) evs →
   deleteDialog (run s evs) = deleteDialog s)
  ∧ (Forall (λ ev, touchesDialog ev = true) evs →
     addError (run s evs) = addError s).
Proof. split; [apply run_keeps_dialog|apply run_keeps_errors]. Qed.

Lemma dialog_and_form_independent_witness :
  let row := Job.mk "a1" "SWE" "Acme" "" false true "" "2024-01-01" in
  let opened := step initial (ClickDeleteIcon row) in
  deleteDialog (run opened [ChangeNewJob (mkChangeEvent "Note" "x");
                            ClickAdd (NewJob.mk "" "" "" false true "" "")])
  = deleteDialog opened.
Proof.
  intros row opened.
  apply (dialog_and_form_independent opened).
  repeat constructor.
Defined.

Lemma validationErrors_known (draft : NewJob.t) (k msg : string) :
  validationErrors draft !! k = Some msg → knownError k msg.
Proof.
  unfold validationErrors, knownError.
  destruct draft as [p c ph cl st n d]; simpl.
  destruct p, c, d; simpl; intros H;
    repeat (apply lookup_insert_Some in H; destruct H as [[<- <-]|[_ H]];
            [auto|]);
    by rewrite lookup_empty in H.
Qed.

(** X5: in every state the component reaches, an entry of the error map is
    either the empty string or one of the three messages of the validation
    under its own key. *)
Theorem error_entries_known (evs : list Event) (k msg : string) :
  addError (run initial evs) !! k = Some msg →
  msg = "" ∨ knownError k msg.
Proof.
  revert k msg. induction evs as [|ev evs IH] using rev_ind; intros k msg.
  - simpl. by rewrite lookup_empty.
  - rewrite run_snoc. destruct (touchesDialog ev) eqn:Hev.
    + rewrite step_keeps_errors by done. apply IH.
    + destruct ev as [| | | |e|draft]; try discriminate;
        unfold step; simpl dispatch.
      * rewrite exec_handleNewJobChange. simpl.
        intros H. apply lookup_insert_Some in H as [[_ <-]|[_ H]].
        -- by left.
        -- by apply IH.
      * rewrite exec_handleAddJobWithValidation. simpl.
        intros H. right. by apply validationErrors_known in H.
Qed.

Lemma error_entries_known_witness :
  let msg := "Company is required" in
  msg = "" ∨ knownError "Company" msg.
Proof.
  intros msg.
  apply (error_entries_known
           [ClickAdd (NewJob.mk "SWE" "" "" false true "" "2024-01-01")]).
  reflexivity.
Defined.

Lemma showsError_insert_empty (s : State) (e : ChangeEvent) (k : string) :
  showsError (exec (handleNewJobChange e) s) k
  = if bool_decide (target_name e = k) then false else showsError s k.
Proof.
  unfold showsError. rewrite exec_handleNewJobChange. simpl.
  destruct (decide (target_name e = k)) as [Hk|Hk].
  - rewrite (bool_decide_eq_true_2 _ Hk). subst k. by rewrite lookup_insert_eq.
  - rewrite (bool_decide_eq_false_2 _ Hk). by rewrite lookup_insert_ne.
Qed.

(** X6: between two submissions an error can only go away: along add-row
    edits and dialog events, a key (own or inherited) that reads as an
    error at the end read as one at the start and was not the name of an
    edit in between. *)
Theorem edits_never_raise_errors (s : State) (evs : list Event) (k : string) :
  Forall (λ ev, isSubmit ev = false) evs →
  showsError (run s evs) k = true →
  showsError s k = true
  ∧ Forall (λ ev, ∀ e, ev = ChangeNewJob e → target_name e ≠ k) evs.
Proof.
  revert s. induction evs as [|ev evs IH]; intros s Hevs Hshow.
  - by split.
  - inversion Hevs as [|? ? Hev Hrest]; subst.
    rewrite run_cons in Hshow. destruct (IH _ Hrest Hshow) as [Hs Hno].
    destruct ev as [j| | | |e|draft]; try discriminate Hev.
    1-4: (unfold showsError in Hs; rewrite step_keeps_errors in Hs by done;
          split; [exact Hs|constructor; [discriminate|exact Hno]]).
    unfold step in Hs. simpl dispatch in Hs.
    rewrite showsError_insert_empty in Hs.
    case_bool_decide as Hk; [discriminate Hs|].
    split; [exact Hs|]. constructor; [|exact Hno].
    by intros e' [= <-].
Qed.

Lemma edits_never_raise_errors_witness :
  let failed := step initial (ClickAdd (NewJob.mk "" "" "" false true "" "")) in
  let evs := [ChangeNewJob (mkChangeEvent "Position" "S")] in
  showsError failed "Company" = true
  ∧ Forall (λ ev, ∀ e, ev = ChangeNewJob e → target_name e ≠ "Company") evs.
Proof.
  intros failed evs.
  apply (edits_never_raise_errors failed evs "Company").
  - repeat constructor.
  - reflexivity.
Defined.

Lemma showsError_submit (s : State) (draft : NewJob.t) (k : string) :
  k ∉ inheritedKeys →
  showsError (step s (ClickAdd draft)) k = true ↔ requiredEmpty draft k.
Proof.
  intros Hk'. unfold step, showsError. simpl dispatch.
  rewrite exec_handleAddJobWithValidation. simpl.
  rewrite <- validationErrors_is_Some.
  destruct (validationErrors draft !! k) as [msg|] eqn:Hk.
  - split; [eauto|]. intros _. by apply validationErrors_message in Hk.
  - rewrite bool_decide_eq_false_2 by done.
    split; [discriminate|]. by intros [? ?].
Qed.

Lemma required_keys_own :
  ("Position" ∉ inheritedKeys) ∧ ("Company" ∉ inheritedKeys)
  ∧ ("Applied date" ∉ inheritedKeys).
Proof.
  unfold inheritedKeys.
  repeat split; intros H;
    repeat (apply elem_of_cons in H as [H|H]; [discriminate H|]);
    by apply elem_of_nil in H.
Qed.

(** X7: after a submission, an input of the add-new row is drawn in its
    error state exactly when it is one of Position, Company and Applied
    date and its draft value is empty; Phase, CL and Note never are. *)
Theorem submit_marks_empty_required_inputs
    (s : State) (draft : NewJob.t) (i : AddRowInput) :
  inputShowsError (step s (ClickAdd draft)) i = true
  ↔ requiredText draft i = Some "".
Proof.
  unfold inputShowsError.
  destruct required_keys_own as (Hp & Hc & Hd).
  destruct i; simpl inputErrorKey; simpl requiredText;
    rewrite ?showsError_submit by done; unfold requiredEmpty;
    try (split; discriminate).
  - split.
    + intros [[_ ->]|[[H _]|[H _]]]; [done|discriminate H..].
    + intros [= ->]. by left.
  - split.
    + intros [[H _]|[[_ ->]|[H _]]]; [discriminate H|done|discriminate H].
    + intros [= ->]. right. by left.
  - split.
    + intros [[H _]|[[H _]|[_ ->]]]; [discriminate H..|done].
    + intros [= ->]. right. by right.
Qed.

(** X8: editing an input of the add-new row removes the error mark of
    that input and leaves the marks of the other inputs as they are: the
    [name] of each input is the key its [error] prop reads. *)
Theorem edit_clears_own_mark_only
    (s : State) (e : ChangeEvent) (i : AddRowInput) :
  target_name e = inputName i →
  inputShowsError (step s (ChangeNewJob e)) i = false
  ∧ ∀ i', i' ≠ i →
      inputShowsError (step s (ChangeNewJob e)) i' = inputShowsError s i'.
Proof.
  intros Hname. unfold step. simpl dispatch. split.
  - unfold inputShowsError. destruct (inputErrorKey i) as [k|] eqn:Hk; [|done].
    rewrite showsError_insert_empty, Hname.
    destruct i; simplify_eq/=; done.
  - intros i' Hi'. unfold inputShowsError.
    destruct (inputErrorKey i') as [k|] eqn:Hk; [|done].
    rewrite showsError_insert_empty, Hname.
    case_bool_decide as Heq; [|done].
    destruct i, i'; simplify_eq/=; done.
Qed.

Lemma edit_clears_own_mark_only_witness :
  let failed := step initial (ClickAdd (NewJob.mk "" "" "" false true "" "")) in
  let e := mkChangeEvent "Position" "S" in
  inputShowsError (step failed (ChangeNewJob e)) InPosition = false
  ∧ ∀ i', i' ≠ InPosition →
      inputShowsError (step failed (ChangeNewJob e)) i'
      = inputShowsError failed i'.
Proof.
  intros failed e.
  apply (edit_clears_own_mark_only failed e InPosition).
  reflexivity.
Defined.

Lemma handleChange_calls_run (s : State) (evs : list Event) :
  omap changeOfCall (calls (run s evs))
  = omap changeOfCall (calls s) ++ omap changeOfEvent evs.
Proof.
  revert s. induction evs as [|ev evs IH]; intros s.
  - simpl. by rewrite app_nil_r.
  - rewrite run_cons, IH, calls_step, omap_app, <- app_assoc. f_equal.
    destruct ev as [j| | | |e|draft]; simpl; try done.
    + by destruct (job (deleteDialog s)).
    + by destruct (validDraft draft).
Qed.

(** X9: over every sequence of user actions on the view, the parent's
    [handleChange] receives exactly the change events of the six inputs of
    the add-new row that are wired to [handleNewJobChange] (Position,
    Company, Phase, CL, Note, Applied date), each once and in order; no
    other control calls it, the Status select of the add-new row, which is
    wired to [setNewJob], included. *)
Theorem handleChange_forwarded (v : ViewState) (acts : list Action) :
  omap changeOfCall (calls (local (play v acts)))
  = omap changeOfCall (calls (local v)) ++ omap changeOfAction acts.
Proof.
  revert v. induction acts as [|a acts IH]; intros v.
  - simpl. by rewrite !app_nil_r.
  - change (play v (a :: acts)) with (play (act v a) acts). rewrite IH.
    change (a :: acts) with ([a] ++ acts). rewrite !omap_app, !app_assoc.
    f_equal. destruct a as [ev|p c]; cbn [act local propCalls].
    + apply (handleChange_calls_run (local v) [ev]).
    + simpl. by rewrite app_nil_r.
Qed.

(** X10: the number of [handleAddJob] calls grows by the number of
    submissions whose draft has Position, Company and Applied date filled
    in; no other event calls [handleAddJob]. *)
Theorem handleAddJob_once_per_valid_submission (s : State) (evs : list Event) :
  length (List.filter isAddCall (calls (run s evs)))
  = (length (List.filter isAddCall (calls s))
     + length (List.filter submitsValid evs))%nat.
Proof.
  revert s. induction evs as [|ev evs IH]; intros s; [simpl; lia|].
  rewrite run_cons, IH, calls_step, List.filter_app, length_app.
  destruct ev as [j| | | |e|draft]; simpl; try lia.
  - destruct (job (deleteDialog s)); simpl; lia.
  - destruct (validDraft draft); simpl; lia.
Qed.

Lemma addError_after_edits (s : State) (es : list ChangeEvent) (k : string) :
  addError (run s (ChangeNewJob <$> es)) !! k
  = if bool_decide (k ∈ target_name <$> es) then Some ""
    else addError s !! k.
Proof.
  revert s. induction es as [|e es IH]; intros s.
  - case_bool_decide as Hnil; [|done]. by apply elem_of_nil in Hnil.
  - rewrite !fmap_cons, run_cons, IH. unfold step. simpl dispatch.
    rewrite exec_handleNewJobChange. simpl.
    case_bool_decide as Hes; case_bool_decide as Hees.
    + done.
    + exfalso. apply Hees, elem_of_cons. by right.
    + apply elem_of_cons in Hees as [->|Hin]; [|contradiction].
      apply lookup_insert_eq.
    + apply lookup_insert_ne. intros <-. apply Hees, elem_of_cons. by left.
Qed.

(** X11: after a run of edits of the add-new row the error map holds the
    empty string under every edited name and its former entry under every
    other key, so the result does not depend on the order of the edits. *)
Theorem edits_reset_edited_names (s : State) (es : list ChangeEvent) :
  (∀ k, addError (run s (ChangeNewJob <$> es)) !! k
        = if bool_decide (k ∈ target_name <$> es) then Some ""
          else addError s !! k)
  ∧ ∀ es', es ≡ₚ es' →
      addError (run s (ChangeNewJob <$> es))
      = addError (run s (ChangeNewJob <$> es')).
Proof.
  split; [apply addError_after_edits|].
  intros es' Hperm. apply map_eq. intros k.
  rewrite !addError_after_edits.
  apply (fmap_Permutation target_name) in Hperm.
  case_bool_decide as Hes; case_bool_decide as Hes'; try done.
  - exfalso. apply Hes'. by rewrite <- Hperm.
  - exfalso. apply Hes. by rewrite Hperm.
Qed.

Lemma edits_reset_edited_names_witness :
  let a := mkChangeEvent "Position" "S" in
  let b := mkChangeEvent "Note" "n" in
  addError (run initial (ChangeNewJob <$> [a; b]))
  = addError (run initial (ChangeNewJob <$> [b; a])).
Proof.
  intros a b.
  apply (edits_reset_edited_names initial [a; b]).
  apply perm_swap.
Defined.

(** * Properties of the inline handlers *)

Lemma statusOfLabel_statusLabel (b : bool) : statusOfLabel (statusLabel b) = b.
Proof. by destruct b. Qed.

(** X12: the Status select shows a label that reads back as the boolean
    it came from, and only the two labels of the select read back to
    themselves (any other value counts as inactive).  A change of the
    select, which carries the option that is not the one shown, reports
    the negation of the current status: for a row to
    [handleJobFieldChange] with the row's [_id], for the add-new row to
    [setNewJob] with the draft changed in Status only. *)
Theorem status_select_round_trip :
  (∀ b, statusOfLabel (statusLabel b) = b)
  ∧ (∀ v, statusLabel (statusOfLabel v) = v ↔ v = "Active" ∨ v = "Inactive")
  ∧ (∀ p j v,
       v ∈ statusOptions → v ≠ statusLabel (Job.Status j) →
       fire p (StatusChange j v)
       = HandleJobFieldChange (Job._id j) "Status"
           (BoolValue (negb (Job.Status j))) (Some "select"))
  ∧ (∀ p v,
       v ∈ statusOptions → v ≠ statusLabel (NewJob.Status (newJob p)) →
       fire p (NewJobStatusChange v)
       = SetNewJob (setDraftStatus (newJob p)
                      (negb (NewJob.Status (newJob p))))).
Proof.
  assert (Hother : ∀ v b, v ∈ statusOptions → v ≠ statusLabel b →
                          statusOfLabel v = negb b).
  { intros v b Hv Hne. unfold statusOptions in Hv.
    apply elem_of_cons in Hv as [->|Hv];
      [|apply list_elem_of_singleton in Hv as ->];
      by destruct b. }
  split; [apply statusOfLabel_statusLabel|]. split; [|split].
  - intros v. unfold statusLabel, statusOfLabel.
    destruct (String.eqb_spec v "Active") as [->|Hne].
    + split; [by left|done].
    + split; [by right|]. intros [-> | ->]; [contradiction|done].
  - intros p j v Hv Hne. simpl. by rewrite (Hother v (Job.Status j)).
  - intros p v Hv Hne. simpl.
    by rewrite (Hother v (NewJob.Status (newJob p))).
Qed.

Lemma status_select_round_trip_witness :
  let row := Job.mk "a1" "SWE" "Acme" "" false true "" "2024-01-01" in
  let p := mkProps FilterSet.empty [row] (NewJob.mk "" "" "" false true "" "") in
  fire p (StatusChange row "Inactive")
  = HandleJobFieldChange "a1" "Status" (BoolValue false) (Some "select").
Proof.
  intros row p.
  destruct status_select_round_trip as (_ & _ & Hrow & _).
  apply (Hrow p row "Inactive").
  - apply elem_of_cons. right. apply list_elem_of_singleton. reflexivity.
  - discriminate.
Defined.

Lemma find_by_id_unique (l : list Job.t) (ident : string) (j' : Job.t) :
  NoDup (Job._id <$> l) → j' ∈ l → Job._id j' = ident →
  List.find (λ x, String.eqb (Job._id x) ident) l = Some j'.
Proof.
  intros Hnd Hin Hid. induction l as [|x l IH]; [by apply elem_of_nil in Hin|].
  rewrite fmap_cons in Hnd. apply NoDup_cons in Hnd as [Hx Hnd]. simpl.
  destruct (String.eqb_spec (Job._id x) ident) as [Hxid|Hxid].
  - apply elem_of_cons in Hin as [->|Hin]; [done|].
    exfalso. apply Hx. rewrite Hxid, <- Hid. by apply list_elem_of_fmap_2.
  - apply elem_of_cons in Hin as [->|Hin]; [contradiction|]. by apply IH.
Qed.

(** X13: when the ids of [jobs] are pairwise distinct, the edit icon of a
    row hands [handleUpdateJob] the entry of [jobs] with the row's [_id],
    that is the stored copy with the pending cell edits, whatever the row
    object itself holds. *)
Theorem edit_sends_stored_job (p : Props) (j j' : Job.t) :
  NoDup (Job._id <$> jobs p) →
  j' ∈ jobs p →
  Job._id j' = Job._id j →
  fire p (ClickEdit j) = HandleUpdateJob (Some j').
Proof.
  intros Hnd Hin Hid. simpl. f_equal. by apply find_by_id_unique.
Qed.

Lemma edit_sends_stored_job_witness :
  let row := Job.mk "a1" "SWE" "Acme" "" false true "" "2024-01-01" in
  let edited := Job.mk "a1" "SWE II" "Acme" "" false true "" "2024-01-01" in
  let other := Job.mk "b2" "QA" "Initech" "" true true "" "2024-02-02" in
  let p := mkProps FilterSet.empty [other; edited] (NewJob.mk "" "" "" false true "" "") in
  fire p (ClickEdit row) = HandleUpdateJob (Some edited).
Proof.
  intros row edited other p.
  apply (edit_sends_stored_job p row edited).
  - simpl. apply NoDup_cons. split.
    + intros H. apply list_elem_of_singleton in H. discriminate H.
    + apply NoDup_cons. split; [apply not_elem_of_nil|apply NoDup_nil_2].
  - apply elem_of_cons. right. apply list_elem_of_singleton. reflexivity.
  - reflexivity.
Defined.

(** X14: the edit icon always calls [handleUpdateJob]: with an entry of
    [jobs] that has the row's [_id], or with [undefined] when [jobs] has no
    entry with that [_id]. *)
Theorem edit_without_stored_job (p : Props) (j : Job.t) :
  (∃ j', fire p (ClickEdit j) = HandleUpdateJob (Some j')
         ∧ j' ∈ jobs p ∧ Job._id j' = Job._id j)
  ∨ (fire p (ClickEdit j) = HandleUpdateJob None
     ∧ ∀ j', j' ∈ jobs p → Job._id j' ≠ Job._id j).
Proof.
  simpl.
  destruct (List.find (λ j', String.eqb (Job._id j') (Job._id j)) (jobs p))
    as [j'|] eqn:Hfind.
  - left. exists j'. apply find_some in Hfind as [Hin Heq].
    split; [done|]. split; [by apply list_elem_of_In|].
    by apply String.eqb_eq.
  - right. split; [done|]. intros j' Hin Heq.
    apply list_elem_of_In in Hin.
    pose proof (find_none _ _ Hfind j' Hin) as Hf. simpl in Hf.
    apply String.eqb_neq in Hf. contradiction.
Qed.

Lemma filterValue_setFilter (fs : FilterSet.t) (f f' : Field) (v : string) :
  filterValue (setFilter fs f v) f'
  = if bool_decide (f' = f) then v else filterValue fs f'.
Proof.
  destruct fs as [p c ph cl st n d]. case_bool_decide as Hf.
  - subst f'. by destruct f.
  - destruct f, f'; simpl; congruence.
Qed.

(** X15: a change of a filter control, which carries a value other than
    the one the control displays, calls [setFilters] with a FilterSet that
    holds the new value in the field of that control and the current value
    in each of the six other fields; the FilterSet passed is therefore
    never the current one. *)
Theorem filter_change_sets_one_field (p : Props) (f : Field) (v : string) :
  v ≠ filterValue (filters p) f →
  ∃ fs',
    fire p (FilterChange f v) = SetFilters fs'
    ∧ filterValue fs' f = v
    ∧ (∀ f', f' ≠ f → filterValue fs' f' = filterValue (filters p) f')
    ∧ fs' ≠ filters p.
Proof.
  intros Hv. exists (setFilter (filters p) f v). split; [reflexivity|].
  assert (Hset : filterValue (setFilter (filters p) f v) f = v).
  { rewrite filterValue_setFilter. by rewrite bool_decide_eq_true_2. }
  split; [exact Hset|]. split.
  - intros f' Hf'. rewrite filterValue_setFilter.
    by rewrite bool_decide_eq_false_2.
  - intros Heq. rewrite Heq in Hset. by apply Hv.
Qed.

Lemma filter_change_sets_one_field_witness :
  let p := mkProps (FilterSet.mk "dev" "" "" "" "" "" "")
             [] (NewJob.mk "" "" "" false true "" "") in
  ∃ fs',
    fire p (FilterChange FCL "true") = SetFilters fs'
    ∧ filterValue fs' FCL = "true"
    ∧ (∀ f', f' ≠ FCL → filterValue fs' f' = filterValue (filters p) f')
    ∧ fs' ≠ filters p.
Proof.
  intros p.
  apply (filter_change_sets_one_field p FCL "true").
  discriminate.
Defined.

(** X16: the call made by a cell of a table row determines the row's
    [_id], the column and the value: two text cells make the same call only
    for the same [_id], column and value, and a text cell never makes the
    call of the CL checkbox or of the Status select. *)
Theorem row_cells_report_distinct_fields
    (p p' : Props) (j j' : Job.t) (c c' : TextColumn) (v v' : string) :
  (fire p (CellChange j c v) = fire p' (CellChange j' c' v')
   ↔ Job._id j = Job._id j' ∧ c = c' ∧ v = v')
  ∧ (∀ b, fire p (CellChange j c v) ≠ fire p' (CLChange j' b))
  ∧ (∀ w, fire p (CellChange j c v) ≠ fire p' (StatusChange j' w))
  ∧ (∀ b w, fire p (CLChange j b) ≠ fire p' (StatusChange j' w)).
Proof.
  split; [|split; [|split]].
  - simpl. split.
    + intros [= Hid Hkey Hv]. split; [done|]. split; [|done].
      destruct c, c'; first [reflexivity|discriminate Hkey].
    + by intros (-> & -> & ->).
  - intros b. simpl. discriminate.
  - intros w. simpl. discriminate.
  - intros b w. simpl. discriminate.
Qed.

(** X17: the table body lists the filtered jobs in their order, ends with
    the add-new row, and holds the placeholder row exactly when there is no
    filtered job. *)
Theorem tableBody_rows (filteredJobs : list Job.t) :
  omap jobOfRow (tableBody filteredJobs) = filteredJobs
  ∧ last (tableBody filteredJobs) = Some AddRow
  ∧ (NoJobsRow ∈ tableBody filteredJobs ↔ filteredJobs = []).
Proof.
  unfold tableBody. split; [|split].
  - rewrite !omap_app.
    assert (Hrows : omap jobOfRow (JobRow <$> filteredJobs) = filteredJobs).
    { induction filteredJobs as [|j l IH]; [done|]. simpl. f_equal. exact IH. }
    rewrite Hrows. case_bool_decide; simpl; by rewrite app_nil_r.
  - by rewrite app_assoc, last_snoc.
  - rewrite !elem_of_app. split.
    + intros [H|[H|H]].
      * case_bool_decide as Hlen; [by apply nil_length_inv|].
        by apply elem_of_nil in H.
      * apply list_elem_of_fmap in H as (j & Hj & _). discriminate Hj.
      * apply list_elem_of_singleton in H. discriminate H.
    + intros ->. left. simpl. apply list_elem_of_singleton. reflexivity.
Qed.

(** X18: logging out removes the [token] entry of [localStorage] and no
    other entry, sends the browser to the login page, and does the same
    when the token is already gone. *)
Theorem handleLogout_removes_token_only (b : Browser) :
  localStorage (handleLogout b) !! "token" = None
  ∧ (∀ k, k ≠ "token" → localStorage (handleLogout b) !! k = localStorage b !! k)
  ∧ location_href (handleLogout b) = "/users/login"
  ∧ handleLogout (handleLogout b) = handleLogout b
  ∧ (localStorage b !! "token" = None →
     localStorage (handleLogout b) = localStorage b).
Proof.
  unfold handleLogout. simpl. split; [apply lookup_delete_eq|].
  split; [intros k Hk; by apply lookup_delete_ne|].
  split; [reflexivity|]. split.
  - by rewrite delete_delete_eq.
  - apply delete_id.
Qed.

(** * The dialog and the row it names *)

(** X19: whenever the dialog is open, it names the position and company of
    the row whose delete icon was clicked last, and pressing Delete calls
    [handleDeleteJob] once, with the [_id] of that row. *)
Theorem delete_names_pending_job (evs : list Event) :
  open (deleteDialog (run initial evs)) = true →
  ∃ j,
    pendingFrom evs j
    ∧ dialogNames (run initial evs) = Some (Job.Position j, Job.Company j)
    ∧ calls (step (run initial evs) ClickDelete)
      = calls (run initial evs) ++ [HandleDeleteJob (Job._id j)].
Proof.
  intros Hopen.
  destruct (reachable_dialog evs) as [Hd|[j Hd]];
    rewrite Hd in Hopen; [discriminate Hopen|].
  assert (Hj : job (deleteDialog (run initial evs)) = Some j) by by rewrite Hd.
  exists j. split; [|split].
  - by apply run_history.
  - unfold dialogNames. by rewrite Hj.
  - by rewrite calls_step, Hj.
Qed.

Lemma delete_names_pending_job_witness :
  let first := Job.mk "a1" "SWE" "Acme" "" false true "" "2024-01-01" in
  let second := Job.mk "b2" "QA" "Initech" "" true true "" "2024-02-02" in
  let evs := [ClickDeleteIcon first; ClickDeleteIcon second] in
  ∃ j,
    pendingFrom evs j
    ∧ dialogNames (run initial evs) = Some (Job.Position j, Job.Company j)
    ∧ calls (step (run initial evs) ClickDelete)
      = calls (run initial evs) ++ [HandleDeleteJob (Job._id j)].
Proof.
  intros first second evs.
  apply (delete_names_pending_job evs).
  reflexivity.
Defined.
